(** * freertos_cpp_util: the intrusive singly linked list and the Logger shell

    A shallow embedding of
      - include/freertos_cpp_util/util/Intrusive_slist.hpp
      - include/freertos_cpp_util/logging/Logger.hpp

    Nodes live outside the list ("held on the stack externally"), so the
    embedding keeps one shared store of node objects, indexed by address,
    and a list object that only holds [m_head].  Every operation threads
    the store explicitly.

    Object_pool.hpp and Queue_static_pod.hpp, which Logger.hpp includes,
    are not among the sources; module [Containers] models the two
    containers from the specification. *)

From stdpp Require Import base option list gmap fin_maps.

(** ** Pointers and the node store *)

(** An address designates a node object. *)
Abbreviation addr := positive (only parsing).

(** [Intrusive_slist_node*]: [None] is [nullptr]. *)
Abbreviation ptr := (option positive) (only parsing).

(** class Intrusive_slist_node: its only data member is [m_next]. *)
Record Intrusive_slist_node : Type := Build_node { m_next : ptr }.

(** Intrusive_slist_node(): [m_next = nullptr]. *)
Definition Intrusive_slist_node_ctor : Intrusive_slist_node :=
  {| m_next := None |}.

(** The node objects of the program.  An address without an entry holds a
    node that nothing has written since its constructor ran. *)
Abbreviation heap := (gmap positive Intrusive_slist_node) (only parsing).

Definition load (h : heap) (a : addr) : Intrusive_slist_node :=
  default Intrusive_slist_node_ctor (h !! a).

(** [a->m_next] read through the store (the accessor [next()]). *)
Definition next (h : heap) (a : addr) : ptr := m_next (load h a).

(** [a->m_next = p;] *)
Definition set_next (h : heap) (a : addr) (p : ptr) : heap :=
  <[a := {| m_next := p |}]> h.

(** ** class Intrusive_slist *)

Record Intrusive_slist : Type := Build_slist { m_head : ptr }.

#[global] Instance ptr_eq_dec : EqDecision (option positive) := _.

#[global] Instance Intrusive_slist_node_eq_dec : EqDecision Intrusive_slist_node.
Proof. solve_decision. Defined.

#[global] Instance Intrusive_slist_eq_dec : EqDecision Intrusive_slist.
Proof. solve_decision. Defined.

(** [T*] for a class [T]: a pointer typed by its pointee. *)
Inductive pointer_to (T : Type) : Type :=
  | null_of : pointer_to T
  | at_addr : addr → pointer_to T.
Arguments null_of {T}.
Arguments at_addr {T} _.

Module Slist.

(** Intrusive_slist(): [m_head = nullptr]. *)
Definition ctor : Intrusive_slist := {| m_head := None |}.

(** Intrusive_slist(Intrusive_slist&& rhs): the pair is (the new list, what
    is left of [rhs]); the constructor does not touch any node. *)
Definition move_ctor (rhs : Intrusive_slist) (h : heap)
  : Intrusive_slist * Intrusive_slist * heap :=
  let this := {| m_head := m_head rhs |} in
  let rhs' := {| m_head := None |} in
  (this, rhs', h).

(** static_assert(std::is_base_of<Intrusive_slist_node, T>::value): the
    types [front<T>] accepts are those with a node base subobject. *)
Class is_base_of_node (T : Type) : Type :=
  { base_subobject : T → Intrusive_slist_node }.

#[global] Instance node_is_base_of_node : is_base_of_node Intrusive_slist_node :=
  {| base_subobject := fun n => n |}.

(** static_cast<T*>(p) from the base pointer: null stays null, an address
    is re-typed. *)
Definition static_cast_to (T : Type) `{is_base_of_node T} (p : ptr)
  : pointer_to T :=
  match p with
  | None => null_of
  | Some a => at_addr a
  end.

(** template<typename T> T* front() *)
Definition front (T : Type) `{is_base_of_node T} (this : Intrusive_slist)
  : pointer_to T :=
  static_cast_to T (m_head this).

(** bool empty() const *)
Definition empty (this : Intrusive_slist) : bool :=
  bool_decide (m_head this = None).

(** void push_front(Intrusive_slist_node* const node).  [node] is
    dereferenced on both branches, so it designates a node object. *)
Definition push_front (this : Intrusive_slist) (h : heap) (node : addr)
  : Intrusive_slist * heap :=
  let h' :=
    match m_head this with
    | Some hd => set_next h node (Some hd)
    | None => set_next h node None
    end in
  ({| m_head := Some node |}, h').

(** void pop_front(): the result is the state alone; no node is handed
    back to the caller. *)
Definition pop_front (this : Intrusive_slist) (h : heap)
  : Intrusive_slist * heap :=
  match m_head this with
  | Some hd => ({| m_head := next h hd |}, h)
  | None => (this, h)
  end.

(** The [while(curr)] loop of [erase].  One unit of fuel pays for one test
    of the loop condition; [None] means the fuel ran out before the loop
    left.  The result is the store and the returned bool. *)
Fixpoint erase_loop (fuel : nat) (h : heap) (prev curr node : ptr)
  : option (heap * bool) :=
  match fuel with
  | O => None
  | S fuel' =>
      match curr with
      | None => Some (h, false)
      | Some c =>
          if decide (curr = node) then
            let h1 :=
              match prev with
              | Some p => set_next h p (next h c)
              | None => h
              end in
            let h2 :=
              match node with
              | Some n => set_next h1 n None
              | None => h1
              end in
            Some (h2, true)
          else
            erase_loop fuel' h (Some c) (next h c) node
      end
  end.

(** bool erase(Intrusive_slist_node* const node): [prev = nullptr],
    [curr = m_head], then the loop.  [m_head] is not assigned anywhere in
    the function. *)
Definition erase (fuel : nat) (this : Intrusive_slist) (h : heap) (node : ptr)
  : option (Intrusive_slist * heap * bool) :=
  match erase_loop fuel h None (m_head this) node with
  | Some (h', found) => Some (this, h', found)
  | None => None
  end.

End Slist.

(** ** The chain reached from a pointer *)

(** [hops h k p]: the pointer reached from [p] after [k] reads of
    [m_next]; stepping from [nullptr] stays at [nullptr]. *)
Fixpoint hops (h : heap) (k : nat) (p : ptr) : ptr :=
  match k with
  | O => p
  | S k' =>
      match p with
      | None => None
      | Some a => hops h k' (next h a)
      end
  end.

(** [node] is in the list: some number of hops from [m_head] lands on it. *)
Definition linked (this : Intrusive_slist) (h : heap) (node : addr) : Prop :=
  ∃ k, hops h k (m_head this) = Some node.

(** [chain h p l]: walking [m_next] from [p] visits the nodes of [l] in
    order and then reaches [nullptr]. *)
Fixpoint chain (h : heap) (p : ptr) (l : list addr) : Prop :=
  match l with
  | [] => p = None
  | a :: l' => p = Some a ∧ chain h (next h a) l'
  end.

(** ** Sequences of list operations *)

Inductive op : Type :=
  | Push (node : addr)
  | Pop
  | Erase (node : ptr).

Definition exec (fuel : nat) (st : Intrusive_slist * heap) (o : op)
  : option (Intrusive_slist * heap) :=
  match o with
  | Push n => Some (Slist.push_front st.1 st.2 n)
  | Pop => Some (Slist.pop_front st.1 st.2)
  | Erase n =>
      match Slist.erase fuel st.1 st.2 n with
      | Some (this, h, _) => Some (this, h)
      | None => None
      end
  end.

Fixpoint run (fuel : nat) (ops : list op) (st : Intrusive_slist * heap)
  : option (Intrusive_slist * heap) :=
  match ops with
  | [] => Some st
  | o :: ops' =>
      match exec fuel st o with
      | Some st' => run fuel ops' st'
      | None => None
      end
  end.

(** Every [Push n] of the sequence meets a list that does not hold [n]. *)
Fixpoint pushes_fresh (fuel : nat) (ops : list op)
    (st : Intrusive_slist * heap) : Prop :=
  match ops with
  | [] => True
  | o :: ops' =>
      match o with
      | Push n => ¬ linked st.1 st.2 n
      | _ => True
      end
      ∧ match exec fuel st o with
        | Some st' => pushes_fresh fuel ops' st'
        | None => True
        end
  end.

(** The nodes handed to [push_front], in order. *)
Fixpoint pushed (ops : list op) : list addr :=
  match ops with
  | [] => []
  | Push n :: ops' => n :: pushed ops'
  | _ :: ops' => pushed ops'
  end.

(** ** class Logger (namespace freertos_util::logging) *)

Module Logging.
Section Logger.

(** Declared in headers this development does not embed:
    Logger_types.hpp ([NUM_RECORDS], [String_type]), Object_pool.hpp,
    Queue_static_pod.hpp and Log_sink_base.hpp.  The two containers are
    class templates over an element type and a length. *)
Variable NUM_RECORDS : nat.
Variable String_type : Type.
Variable Object_pool : Type → nat → Type.
Variable Queue_static_pod : Type → nat → Type.
Variable Log_sink_base : Type.

(** The default constructors the members are initialised with. *)
Variable Object_pool_ctor : ∀ T LEN, Object_pool T LEN.
Variable Queue_static_pod_ctor : ∀ T LEN, Queue_static_pod T LEN.

(** The data members, in declaration order. *)
Record Logger : Type := Build_Logger {
  m_log_pool : Object_pool String_type NUM_RECORDS;
  m_log_buffer : Queue_static_pod (pointer_to String_type) NUM_RECORDS;
  m_sink : pointer_to Log_sink_base
}.

(** Logger(): the members are default-constructed, then
    [m_sink = nullptr]. *)
Definition Logger_ctor : Logger :=
  {| m_log_pool := Object_pool_ctor String_type NUM_RECORDS;
     m_log_buffer := Queue_static_pod_ctor (pointer_to String_type) NUM_RECORDS;
     m_sink := null_of |}.

(** void set_sink(Log_sink_base* const sink): [m_sink = sink]. *)
Definition set_sink (this : Logger) (sink : pointer_to Log_sink_base)
  : Logger :=
  {| m_log_pool := m_log_pool this;
     m_log_buffer := m_log_buffer this;
     m_sink := sink |}.

End Logger.

Arguments m_log_pool {NUM_RECORDS String_type Object_pool Queue_static_pod
                      Log_sink_base} _.
Arguments m_log_buffer {NUM_RECORDS String_type Object_pool Queue_static_pod
                        Log_sink_base} _.
Arguments m_sink {NUM_RECORDS String_type Object_pool Queue_static_pod
                  Log_sink_base} _.
Arguments Build_Logger {NUM_RECORDS String_type Object_pool Queue_static_pod
                        Log_sink_base} _ _ _.
Arguments set_sink {NUM_RECORDS String_type Object_pool Queue_static_pod
                    Log_sink_base} _ _.

End Logging.

(** ** The two containers a Logger is built from *)

Module Containers.

(** Modelled from the spec: Object_pool.hpp is not among the embedded
    sources.  Section 4.2: the pool manages N preallocated slots of a fixed
    record type and tracks the available ones on its free-list; the set of
    slots is fixed at construction and never grows.  A slot is named by its
    index, [pool_free] is the free-list with its head first, and the
    contents of a record are left out (they are undefined while a slot is
    free). *)
Record Object_pool (T : Type) (LEN : nat) : Type :=
  Build_Object_pool { pool_free : list nat }.
Arguments Build_Object_pool {T LEN} _.
Arguments pool_free {T LEN} _.

(** Modelled from the spec: the constructor of the absent Object_pool.hpp.
    Section 4.2: construction threads every one of the N slots into the
    free-list, starting fully free. *)
Definition Object_pool_ctor (T : Type) (LEN : nat) : Object_pool T LEN :=
  {| pool_free := seq 0 LEN |}.

(** Modelled from the spec: acquire() of the absent Object_pool.hpp.
    Section 4.2: pops the free-list head and returns that slot, or a null
    result if the free-list is empty. *)
Definition acquire {T LEN} (p : Object_pool T LEN)
  : option nat * Object_pool T LEN :=
  match pool_free p with
  | [] => (None, p)
  | slot :: rest => (Some slot, {| pool_free := rest |})
  end.

(** Modelled from the spec: Queue_static_pod.hpp is not among the embedded
    sources.  Section 4.3: a bounded FIFO of plain values held in storage of
    fixed capacity N; [queue_items] are the queued values, oldest first. *)
Record Queue_static_pod (T : Type) (LEN : nat) : Type :=
  Build_Queue_static_pod { queue_items : list T }.
Arguments Build_Queue_static_pod {T LEN} _.
Arguments queue_items {T LEN} _.

(** Modelled from the spec: the constructor of the absent
    Queue_static_pod.hpp; a queue starts with nothing queued. *)
Definition Queue_static_pod_ctor (T : Type) (LEN : nat)
  : Queue_static_pod T LEN :=
  {| queue_items := [] |}.

(** Modelled from the spec: size() of the absent Queue_static_pod.hpp
    (section 4.3). *)
Definition size {T LEN} (q : Queue_static_pod T LEN) : nat :=
  length (queue_items q).

(** Modelled from the spec: push(value) of the absent Queue_static_pod.hpp.
    Section 4.3: appends to the tail if size < capacity, and returns
    failure otherwise; it never blocks and never grows. *)
Definition push {T LEN} (q : Queue_static_pod T LEN) (v : T)
  : bool * Queue_static_pod T LEN :=
  if decide (size q < LEN)
  then (true, {| queue_items := queue_items q ++ [v] |})
  else (false, q).

(** [acquire] called [k] times in a row: the results in call order, and
    the pool left. *)
Fixpoint acquire_n {T LEN} (k : nat) (p : Object_pool T LEN)
  : list (option nat) * Object_pool T LEN :=
  match k with
  | O => ([], p)
  | S k' =>
      let r := acquire p in
      let rs := acquire_n k' r.2 in
      (r.1 :: rs.1, rs.2)
  end.

(** [push] called on each value of [vs] in turn: the results in call
    order, and the queue left. *)
Fixpoint push_each {T LEN} (vs : list T) (q : Queue_static_pod T LEN)
  : list bool * Queue_static_pod T LEN :=
  match vs with
  | [] => ([], q)
  | v :: vs' =>
      let r := push q v in
      let rs := push_each vs' r.2 in
      (r.1 :: rs.1, rs.2)
  end.

End Containers.

(** The Logger type over the two containers above. *)
Definition Logger_of (NUM_RECORDS : nat) (String_type Log_sink_base : Type)
  : Type :=
  Logging.Logger NUM_RECORDS String_type Containers.Object_pool
                 Containers.Queue_static_pod Log_sink_base.

(** [Logger()] over the two containers above. *)
Definition Logger_new (NUM_RECORDS : nat) (String_type Log_sink_base : Type)
  : Logger_of NUM_RECORDS String_type Log_sink_base :=
  Logging.Logger_ctor NUM_RECORDS String_type Containers.Object_pool
    Containers.Queue_static_pod Log_sink_base
    Containers.Object_pool_ctor Containers.Queue_static_pod_ctor.

(** A Logger after its constructor and any number of [set_sink] calls, the
    only two functions the header defines. *)
Definition Logger_after {NUM_RECORDS : nat} {String_type Log_sink_base : Type}
    (sinks : list (pointer_to Log_sink_base))
  : Logger_of NUM_RECORDS String_type Log_sink_base :=
  foldl Logging.set_sink (Logger_new NUM_RECORDS String_type Log_sink_base)
        sinks.

(** ** Detaching operations *)

(** [detaches h this node h']: one of the operations that take nodes away
    from [this] ran on store [h], took [node] away and left store [h']:
    [pop_front] with [node] at the head, a successful [erase(node)], or a
    move construction from [this] while [node] was linked. *)
Inductive detaches (h : heap) (this : Intrusive_slist) (node : addr)
  : heap → Prop :=
  | detach_pop_front :
      m_head this = Some node →
      detaches h this node (Slist.pop_front this h).2
  | detach_erase fuel this' h' :
      Slist.erase fuel this h (Some node) = Some (this', h', true) →
      detaches h this node h'
  | detach_move :
      linked this h node →
      detaches h this node (Slist.move_ctor this h).2.

(** ** A small concrete configuration *)

(** Two nodes at addresses 1 and 2, threaded 1 -> 2 -> nullptr, and a list
    whose head is node 1. *)
Definition two_nodes : gmap positive Intrusive_slist_node :=
  set_next (set_next ∅ 2%positive None) 1%positive (Some 2%positive).

Definition list_at_1 : Intrusive_slist := {| m_head := Some 1%positive |}.

(** The same with a third node, 1 -> 2 -> 3 -> nullptr. *)
Definition three_nodes : gmap positive Intrusive_slist_node :=
  set_next
    (set_next (set_next ∅ 3%positive None) 2%positive (Some 3%positive))
    1%positive (Some 2%positive).

(** ** The node's own constructors *)

(** Intrusive_slist_node(const Intrusive_slist_node& rhs) = default, and
    the defaulted operator= alike: the object at [this] takes
    [rhs.m_next]; [rhs] is not written. *)
Definition node_copy (h : heap) (this rhs : addr) : heap :=
  set_next h this (next h rhs).

(** Intrusive_slist_node(Intrusive_slist_node&& rhs):
    [m_next = rhs.m_next; rhs.m_next = nullptr;] for the object built at
    [this]. *)
Definition node_move_ctor (h : heap) (this rhs : addr) : heap :=
  let h1 := set_next h this (next h rhs) in
  set_next h1 rhs None.

(** ** Repeated calls *)

(** [push_front] called on each node of [ns] in turn. *)
Fixpoint push_all (ns : list addr) (st : Intrusive_slist * heap)
  : Intrusive_slist * heap :=
  match ns with
  | [] => st
  | n :: ns' => push_all ns' (Slist.push_front st.1 st.2 n)
  end.

(** [pop_front] called [k] times. *)
Fixpoint pop_n (k : nat) (st : Intrusive_slist * heap)
  : Intrusive_slist * heap :=
  match k with
  | O => st
  | S k' => pop_n k' (Slist.pop_front st.1 st.2)
  end.

(** One node at address 1 whose link designates itself. *)
Definition self_loop : gmap positive Intrusive_slist_node :=
  set_next ∅ 1%positive (Some 1%positive).

(** * Properties *)

(** ** The node store *)

Lemma next_set_next_eq (h : heap) a p : next (set_next h a p) a = p.
Proof. unfold next, load, set_next. by rewrite lookup_insert_eq. Qed.

Lemma next_set_next_ne (h : heap) a b p :
  a ≠ b → next (set_next h a p) b = next h b.
Proof. intros Hne. unfold next, load, set_next. by rewrite lookup_insert_ne. Qed.

(** ** Chains *)

Lemma chain_det (h : heap) l1 : ∀ p l2, chain h p l1 → chain h p l2 → l1 = l2.
Proof.
  induction l1 as [|a l1 IH]; intros p [|b l2]; simpl; try done.
  - intros -> [? _]. done.
  - intros [-> _] ?. done.
  - intros [-> H1] [[= <-] H2]. f_equal. eauto.
Qed.

Lemma chain_suffix (h : heap) l1 : ∀ p a l2,
  chain h p (l1 ++ a :: l2) → chain h (Some a) (a :: l2).
Proof.
  induction l1 as [|b l1 IH]; simpl; intros p a l2.
  - intros [_ H]. by split.
  - intros [_ H]. exact (IH _ _ _ H).
Qed.

(** A chain that reaches [nullptr] visits no node twice. *)
Lemma chain_NoDup (h : heap) l : ∀ p, chain h p l → NoDup l.
Proof.
  induction l as [|a l IH]; intros p Hc; [constructor|].
  destruct Hc as [-> Hc]. constructor; [|eauto].
  intros Hin. apply list_elem_of_split in Hin as (l1 & l2 & ->).
  pose proof (chain_suffix _ _ _ _ _ Hc) as Hs.
  assert (Heq : a :: l1 ++ a :: l2 = a :: l2).
  { eapply chain_det; [|exact Hs]. simpl. done. }
  apply (f_equal length) in Heq. simpl in Heq.
  rewrite length_app in Heq. simpl in Heq. lia.
Qed.

(** Writing the link of a node outside a chain leaves the chain as it is. *)
Lemma chain_set_next_frame (h : heap) a q l : ∀ p,
  a ∉ l → chain h p l → chain (set_next h a q) p l.
Proof.
  induction l as [|b l IH]; simpl; intros p Hnin; [done|].
  intros [-> Hc]. split; [done|].
  rewrite next_set_next_ne; [|set_solver]. apply IH; [set_solver|done].
Qed.

(** Membership in the list is membership in its chain. *)
Lemma hops_chain (h : heap) l : ∀ p k n,
  chain h p l → hops h k p = Some n → n ∈ l.
Proof.
  induction l as [|a l IH]; simpl; intros p k n.
  - intros ->. destruct k; simpl; done.
  - intros [-> Hc]. destruct k as [|k]; simpl.
    + intros [= ->]. set_solver.
    + intros Hk. apply elem_of_cons. right. eauto.
Qed.

Lemma chain_hops (h : heap) l : ∀ p n,
  chain h p l → n ∈ l → ∃ k, hops h k p = Some n.
Proof.
  induction l as [|a l IH]; simpl; intros p n.
  - intros _ Hin. set_solver.
  - intros [-> Hc] [->|Hin]%elem_of_cons.
    + by exists 0.
    + destruct (IH _ _ Hc Hin) as [k Hk]. by exists (S k).
Qed.

Lemma linked_chain (this : Intrusive_slist) (h : heap) l n :
  chain h (m_head this) l → linked this h n ↔ n ∈ l.
Proof.
  intros Hc. split.
  - intros [k Hk]. eauto using hops_chain.
  - intros Hin. eapply chain_hops; eauto.
Qed.

(** Refutes [linked this h n] on a concrete store whose chain is [l]. *)
Ltac not_linked l :=
  let Hin := fresh "Hin" in
  intros Hin;
  eapply (linked_chain _ _ l) in Hin; [|by vm_compute];
  revert Hin; rewrite ?elem_of_cons;
  intros Hin; decompose [or] Hin; try discriminate;
  try (eapply not_elem_of_nil; eassumption).

Lemma not_elem_of_app_cons (x : addr) (l1 : list addr) n l2 :
  x ∉ (l1 ++ n :: l2) → (x ∉ l1) ∧ (x ≠ n) ∧ (x ∉ l2).
Proof. rewrite not_elem_of_app, not_elem_of_cons. tauto. Qed.

(** ** The scan of [erase] *)

(** The loop never writes before it finds [node]. *)
Lemma erase_loop_false_store fuel : ∀ (h : heap) prev curr node h',
  Slist.erase_loop fuel h prev curr node = Some (h', false) → h' = h.
Proof.
  induction fuel as [|fuel IH]; simpl; intros h prev curr node h'; [done|].
  destruct curr as [c|]; [|by intros [= <-]].
  case_decide; [done|]. apply IH.
Qed.

(** Whenever the loop reports success it has cleared [node->m_next]. *)
Lemma erase_loop_true_next fuel : ∀ (h : heap) prev curr n h',
  Slist.erase_loop fuel h prev curr (Some n) = Some (h', true) →
  next h' n = None.
Proof.
  induction fuel as [|fuel IH]; simpl; intros h prev curr n h'; [done|].
  destruct curr as [c|]; [|done].
  case_decide; [|apply IH].
  intros [= <-]. apply next_set_next_eq.
Qed.

(** A scan over a chain that does not hold [node] runs to the end. *)
Lemma erase_loop_absent (l : list addr) : ∀ fuel (h : heap) prev curr node,
  chain h curr l →
  (∀ a, a ∈ l → node ≠ Some a) →
  length l < fuel →
  Slist.erase_loop fuel h prev curr node = Some (h, false).
Proof.
  induction l as [|a l IH]; intros fuel h prev curr node Hc Hnin Hfuel;
    simpl in Hc, Hfuel.
  - subst curr. destruct fuel; [lia|]. done.
  - destruct Hc as [-> Hc]. destruct fuel as [|fuel]; [lia|]. simpl.
    case_decide as Heq.
    + exfalso. eapply Hnin; [|symmetry; exact Heq]. set_solver.
    + apply IH; [done| |lia]. intros b Hb. apply Hnin. set_solver.
Qed.

(** A scan that has a predecessor [p] in hand and [node] further down the
    chain: the predecessor of [node] is linked past it, [node->m_next] is
    cleared, and every other link stays. *)
Lemma erase_loop_inner (l1 : list addr) : ∀ fuel (h : heap) p n l2,
  chain h (Some p) (p :: l1 ++ n :: l2) →
  length l1 < fuel →
  ∃ h', Slist.erase_loop fuel h (Some p) (next h p) (Some n) = Some (h', true)
        ∧ chain h' (Some p) (p :: l1 ++ l2)
        ∧ next h' n = None
        ∧ ∀ x, x ∉ p :: l1 → x ≠ n → next h' x = next h x.
Proof.
  induction l1 as [|a l1 IH]; intros fuel h p n l2 Hc Hfuel.
  - pose proof (chain_NoDup _ _ _ Hc) as Hnd. simpl in Hc, Hnd.
    destruct Hc as (_ & Hpn & Hc).
    apply NoDup_cons in Hnd as [Hp Hnd]. apply NoDup_cons in Hnd as [Hn _].
    apply not_elem_of_cons in Hp as [Hpn' Hp].
    destruct fuel as [|fuel]; [simpl in Hfuel; lia|].
    rewrite Hpn. simpl. rewrite decide_True by done.
    eexists. split; [done|]. split; [|split].
    + simpl. split; [done|].
      rewrite next_set_next_ne by done. rewrite next_set_next_eq.
      apply chain_set_next_frame; [done|].
      apply chain_set_next_frame; [done|done].
    + apply next_set_next_eq.
    + intros x Hx Hxn. rewrite next_set_next_ne by done.
      apply next_set_next_ne. apply not_elem_of_cons in Hx as [Hx _]. done.
  - pose proof (chain_NoDup _ _ _ Hc) as Hnd.
    change (p :: (a :: l1) ++ n :: l2) with (p :: a :: l1 ++ n :: l2) in Hc, Hnd.
    destruct Hc as (_ & Hpa & Hc).
    apply NoDup_cons in Hnd as [Hp Hnd].
    pose proof Hnd as Hnd'. apply NoDup_cons in Hnd' as [Ha _].
    apply not_elem_of_app_cons in Ha as (_ & Han & _).
    apply (not_elem_of_app_cons p (a :: l1)) in Hp as (Hp1 & Hp2 & _).
    destruct fuel as [|fuel]; [simpl in Hfuel; lia|].
    rewrite Hpa. simpl. rewrite decide_False by congruence.
    destruct (IH fuel h a n l2) as (h' & Hrun & Hc' & Hn' & Hframe).
    { simpl. split; [done|]. exact Hc. }
    { simpl in Hfuel. lia. }
    exists h'. split; [done|]. split; [|split; [done|]].
    + simpl. split; [done|]. rewrite Hframe by done.
      rewrite Hpa. exact Hc'.
    + intros x Hx Hxn. apply Hframe; [|done].
      apply not_elem_of_cons in Hx as [_ Hx]. done.
Qed.

(** *** [erase] as a whole *)

Lemma erase_absent fuel this (h : heap) l node :
  chain h (m_head this) l →
  (∀ a, a ∈ l → node ≠ Some a) →
  length l < fuel →
  Slist.erase fuel this h node = Some (this, h, false).
Proof.
  intros Hc Hnin Hfuel. unfold Slist.erase.
  by rewrite (erase_loop_absent l fuel h None (m_head this) node).
Qed.

(** [node] at the head: only [node->m_next] is written; [m_head] still
    designates [node]. *)
Lemma erase_head fuel this (h : heap) n :
  m_head this = Some n →
  0 < fuel →
  Slist.erase fuel this h (Some n) = Some (this, set_next h n None, true).
Proof.
  intros Hhd Hfuel. unfold Slist.erase. rewrite Hhd.
  destruct fuel; [lia|]. simpl. by rewrite decide_True.
Qed.

(** [node] past the head: it is unthreaded. *)
Lemma erase_inner fuel this (h : heap) p l1 n l2 :
  chain h (m_head this) (p :: l1 ++ n :: l2) →
  S (length l1) < fuel →
  ∃ h', Slist.erase fuel this h (Some n) = Some (this, h', true)
        ∧ chain h' (m_head this) (p :: l1 ++ l2)
        ∧ next h' n = None
        ∧ ∀ x, x ∉ p :: l1 → x ≠ n → next h' x = next h x.
Proof.
  intros Hc Hfuel.
  pose proof (chain_NoDup _ _ _ Hc) as Hnd.
  pose proof Hc as Hc0. simpl in Hc0. destruct Hc0 as [Hhd _].
  rewrite Hhd in Hc.
  apply NoDup_cons in Hnd as [Hp _].
  apply not_elem_of_app_cons in Hp as (_ & Hpn & _).
  destruct fuel as [|fuel]; [lia|].
  destruct (erase_loop_inner l1 fuel h p n l2 Hc) as (h' & Hrun & Hrest);
    [lia|].
  exists h'. split; [|by rewrite Hhd].
  unfold Slist.erase. rewrite Hhd. simpl.
  rewrite decide_False by congruence. by rewrite Hrun.
Qed.

(** Whatever the pointer asked for, a scan of a chain with enough fuel
    returns, and what it leaves is again a chain drawn from the old one. *)
Lemma erase_total fuel this (h : heap) l node :
  chain h (m_head this) l →
  length l < fuel →
  ∃ h' found l',
    Slist.erase fuel this h node = Some (this, h', found)
    ∧ chain h' (m_head this) l'
    ∧ (∀ x, x ∈ l' → x ∈ l)
    ∧ (found = true ↔ ∃ n, node = Some n ∧ n ∈ l).
Proof.
  intros Hc Hfuel.
  destruct node as [n|].
  - destruct (decide (n ∈ l)) as [Hin|Hnin].
    + apply list_elem_of_split in Hin as (l1 & l2 & ->).
      destruct l1 as [|p l1].
      * simpl in Hc. destruct Hc as [Hhd Hc].
        exists (set_next h n None), true, [n].
        split; [apply erase_head; [done|lia]|].
        split; [|split].
        -- rewrite Hhd. simpl. split; [done|]. apply next_set_next_eq.
        -- intros x Hx%list_elem_of_singleton. subst x. simpl.
           apply list_elem_of_here.
        -- split; [|done]. intros _. exists n. split; [done|]. simpl.
           apply list_elem_of_here.
      * destruct (erase_inner fuel this h p l1 n l2 Hc)
          as (h' & Hrun & Hc' & _).
        { rewrite length_app in Hfuel. simpl in Hfuel. lia. }
        exists h', true, (p :: l1 ++ l2).
        split; [done|]. split; [done|]. split.
        -- intros x. change ((p :: l1) ++ n :: l2) with (p :: l1 ++ n :: l2).
           rewrite !elem_of_cons, !elem_of_app, elem_of_cons. tauto.
        -- split; [|done]. intros _. exists n. split; [done|].
           apply elem_of_app. right. apply list_elem_of_here.
    + exists h, false, l. split; [|split; [done|split; [done|]]].
      * apply (erase_absent fuel this h l); [done| |done].
        intros a Ha [= ->]. done.
      * split; [done|]. intros (n' & [= <-] & Hin). done.
  - exists h, false, l. split; [|split; [done|split; [done|]]].
    + apply (erase_absent fuel this h l); [done| |done]. done.
    + split; [done|]. intros (n' & [=] & _).
Qed.

(** ** Operation sequences *)

Lemma remove_dups_length_le (l : list addr) :
  length (remove_dups l) ≤ length l.
Proof.
  apply submseteq_length, NoDup_submseteq; [apply NoDup_remove_dups|].
  intros x. by rewrite elem_of_remove_dups.
Qed.

(** A chain whose nodes all come from [seen] is no longer than the number
    of distinct nodes of [seen]. *)
Lemma chain_length_le (h : heap) p l (seen : list addr) :
  chain h p l → (∀ x, x ∈ l → x ∈ seen) →
  length l ≤ length (remove_dups seen).
Proof.
  intros Hc Hsub.
  apply submseteq_length, NoDup_submseteq; [eapply chain_NoDup; eauto|].
  intros x Hx. rewrite elem_of_remove_dups. auto.
Qed.

Lemma push_front_chain this (h : heap) l n :
  chain h (m_head this) l → n ∉ l →
  chain (Slist.push_front this h n).2 (m_head (Slist.push_front this h n).1)
        (n :: l).
Proof.
  intros Hc Hnin. unfold Slist.push_front. simpl. split; [done|].
  destruct (m_head this) as [hd|] eqn:Hhd.
  - rewrite next_set_next_eq. by apply chain_set_next_frame.
  - rewrite next_set_next_eq. by apply chain_set_next_frame.
Qed.

Lemma pop_front_chain this (h : heap) l :
  chain h (m_head this) l →
  chain (Slist.pop_front this h).2 (m_head (Slist.pop_front this h).1)
        (tail l).
Proof.
  intros Hc. unfold Slist.pop_front.
  destruct l as [|a l]; simpl in Hc.
  - rewrite Hc. simpl. done.
  - destruct Hc as [-> Hc]. simpl. done.
Qed.

(** The invariant of a run: the list is a chain of nodes that were pushed
    earlier.  [seen] are the nodes pushed before [ops] starts. *)
Lemma run_chain (ops : list op) : ∀ fuel st l (seen : list addr),
  chain st.2 (m_head st.1) l →
  (∀ x, x ∈ l → x ∈ seen) →
  length (seen ++ pushed ops) < fuel →
  pushes_fresh fuel ops st →
  ∃ st' l',
    run fuel ops st = Some st'
    ∧ chain st'.2 (m_head st'.1) l'
    ∧ ∀ x, x ∈ l' → x ∈ seen ++ pushed ops.
Proof.
  induction ops as [|o ops IH]; intros fuel [this h] l seen Hc Hsub Hfuel Hfresh;
    simpl in Hc.
  - exists (this, h), l. simpl. rewrite app_nil_r. done.
  - destruct o as [n| |node]; simpl in Hfresh |- *.
    + destruct Hfresh as [Hn Hfresh].
      assert (n ∉ l) as Hnin by (by rewrite <- (linked_chain this h l n Hc)).
      destruct (IH fuel (Slist.push_front this h n) (n :: l) (seen ++ [n]))
        as (st' & l' & Hrun & Hc' & Hsub').
      * by apply push_front_chain.
      * intros x [->|Hx]%elem_of_cons; apply elem_of_app.
        -- right. apply list_elem_of_here.
        -- left. auto.
      * by rewrite <- app_assoc.
      * done.
      * exists st', l'. rewrite <- app_assoc in Hsub'. done.
    + destruct Hfresh as [_ Hfresh].
      destruct (IH fuel (Slist.pop_front this h) (tail l) seen)
        as (st' & l' & Hrun & Hc' & Hsub').
      * by apply pop_front_chain.
      * intros x Hx. apply Hsub. destruct l; [done|]. simpl in Hx.
        apply elem_of_cons. by right.
      * done.
      * done.
      * exists st', l'. done.
    + destruct Hfresh as [_ Hfresh].
      destruct (erase_total fuel this h l node Hc)
        as (h' & found & l0 & Herase & Hc0 & Hsub0 & _).
      { pose proof (chain_length_le h _ l seen Hc Hsub).
        pose proof (remove_dups_length_le seen).
        rewrite length_app in Hfuel. lia. }
      rewrite Herase in Hfresh |- *.
      destruct (IH fuel (this, h') l0 seen) as (st' & l' & Hrun & Hc' & Hsub');
        try done.
      * intros x Hx. auto.
      * exists st', l'. done.
Qed.

(** * The specification's properties *)

(** ** Intrusive_slist::erase *)

(** C1.  [erase(node)] is to unthread [node] wherever it sits, the head
    included.  On the list 1 -> 2 with [node] = 1 the scan stops at once
    with [prev == nullptr]: it clears node 1's link, returns true and
    leaves [m_head] on node 1.  Node 1 is still the front of the list and
    node 2, which was never asked for, is no longer reachable. *)
Theorem erase_head_stays_linked :
  chain two_nodes (m_head list_at_1) [1%positive; 2%positive]
  ∧ ∃ this' h',
      Slist.erase 3 list_at_1 two_nodes (Some 1%positive)
        = Some (this', h', true)
      ∧ m_head this' = Some 1%positive
      ∧ Slist.empty this' = false
      ∧ linked this' h' 1%positive
      ∧ ¬ linked this' h' 2%positive
      ∧ chain h' (m_head this') [1%positive].
Proof.
  split; [by vm_compute|].
  exists list_at_1, (set_next two_nodes 1%positive None).
  assert (Hc : chain (set_next two_nodes 1%positive None)
                 (m_head list_at_1) [1%positive]) by (by vm_compute).
  split; [reflexivity|]. split; [reflexivity|]. split; [reflexivity|].
  split; [|split; [|exact Hc]].
  - by exists 0.
  - rewrite (linked_chain _ _ _ _ Hc). intros Hin%list_elem_of_singleton. done.
Qed.

(** ** Detached nodes *)

(** C2, as stated, fails: move-constructing from the list 1 -> 2 takes
    node 1 away from the source list and node 1 still links to node 2. *)
Lemma detached_next_null_fails :
  ¬ (∀ (h : gmap positive Intrusive_slist_node) this node h',
       detaches h this node h' → next h' node = None).
Proof.
  intros Hall.
  specialize (Hall two_nodes list_at_1 1%positive _
                (detach_move two_nodes list_at_1 1%positive
                   (ex_intro _ 0 eq_refl))).
  vm_compute in Hall. discriminate Hall.
Qed.

(** [pop_front] does not write the node it drops either: after popping
    node 1 off 1 -> 2 its link still designates node 2. *)
Lemma pop_front_keeps_link :
  detaches two_nodes list_at_1 1%positive (Slist.pop_front list_at_1 two_nodes).2
  ∧ next (Slist.pop_front list_at_1 two_nodes).2 1%positive = Some 2%positive.
Proof. split; [by apply detach_pop_front|reflexivity]. Qed.

(** C2, amended.  A node whose [erase] returned true has a null link
    afterwards.  A move construction writes no node and only hands
    [m_head] over: the store is the same, the new list has the head the
    source had and the source has a null head, so the nodes reached from
    the new list are those that were reached from the source, over the
    same chain, and none is reached from the source any more. *)
Theorem erase_clears_link_move_keeps_links
    this (h : gmap positive Intrusive_slist_node) :
  (∀ fuel node this' h',
     Slist.erase fuel this h (Some node) = Some (this', h', true) →
     next h' node = None)
  ∧ (Slist.move_ctor this h).2 = h
  ∧ (∀ a, next (Slist.move_ctor this h).2 a = next h a)
  ∧ m_head (Slist.move_ctor this h).1.1 = m_head this
  ∧ m_head (Slist.move_ctor this h).1.2 = None
  ∧ (∀ n, linked (Slist.move_ctor this h).1.1 (Slist.move_ctor this h).2 n
          ↔ linked this h n)
  ∧ (∀ n, ¬ linked (Slist.move_ctor this h).1.2 (Slist.move_ctor this h).2 n)
  ∧ ∀ l, chain h (m_head this) l →
         chain (Slist.move_ctor this h).2
               (m_head (Slist.move_ctor this h).1.1) l.
Proof.
  split.
  - intros fuel node this' h' Herase.
    unfold Slist.erase in Herase.
    destruct (Slist.erase_loop fuel h None (m_head this) (Some node))
      as [[h1 b]|] eqn:Hloop; [|done].
    injection Herase as <- <- ->.
    by eapply erase_loop_true_next.
  - simpl. repeat split; try done.
    intros n [k Hk]. simpl in Hk. by destruct k.
Qed.

Lemma erase_clears_link_move_keeps_links_witness :
  next (set_next (set_next three_nodes 1%positive (Some 3%positive))
                 2%positive None) 2%positive = None
  ∧ (Slist.move_ctor list_at_1 three_nodes).2 = three_nodes
  ∧ m_head (Slist.move_ctor list_at_1 three_nodes).1.1 = Some 1%positive
  ∧ m_head (Slist.move_ctor list_at_1 three_nodes).1.2 = None.
Proof.
  destruct (erase_clears_link_move_keeps_links list_at_1 three_nodes)
    as (Herase & Hstore & _ & Hnew & Hsrc & _).
  split; [|split; [exact Hstore|split; [exact Hnew|exact Hsrc]]].
  apply (Herase 3 2%positive list_at_1). reflexivity.
Defined.

(** ** Intrusive_slist::pop_front *)

(** C3.  On a non-empty list [pop_front] moves [m_head] to the old head's
    [m_next], so the chain loses its first node; on an empty list it
    changes nothing.  It writes no node, and its result is the state
    alone. *)
Theorem pop_front_advances_or_noop this (h : gmap positive Intrusive_slist_node) :
  (Slist.empty this = false →
     ∃ hd, m_head this = Some hd
           ∧ Slist.pop_front this h = ({| m_head := next h hd |}, h)
           ∧ ∀ l, chain h (m_head this) (hd :: l) →
                  chain (Slist.pop_front this h).2
                        (m_head (Slist.pop_front this h).1) l)
  ∧ (Slist.empty this = true → Slist.pop_front this h = (this, h)).
Proof.
  unfold Slist.empty, Slist.pop_front. destruct this as [[hd|]]; simpl.
  - split; [|done]. intros _. exists hd. split; [done|]. split; [done|].
    by intros l [_ Hc].
  - split; [done|]. done.
Qed.

Lemma pop_front_advances_or_noop_witness :
  (Slist.empty list_at_1 = false
   ∧ Slist.pop_front list_at_1 two_nodes = ({| m_head := Some 2%positive |}, two_nodes))
  ∧ (Slist.empty Slist.ctor = true
     ∧ Slist.pop_front Slist.ctor two_nodes = (Slist.ctor, two_nodes)).
Proof.
  split.
  - split; [reflexivity|].
    destruct (pop_front_advances_or_noop list_at_1 two_nodes) as [Hne _].
    destruct (Hne eq_refl) as (hd & Hhd & Hpop & _).
    injection Hhd as <-. exact Hpop.
  - split; [reflexivity|].
    destruct (pop_front_advances_or_noop Slist.ctor two_nodes) as [_ He].
    exact (He eq_refl).
Defined.

(** ** Intrusive_slist::push_front *)

(** C4.  Pushing a node that is not in the list makes it the head, with its
    link on the previous head (null when the list was empty): [front()]
    returns it, [empty()] is false, the chain is the old one behind the new
    node, and no other node is written. *)
Theorem push_front_links_new_head
    (T : Type) `{Slist.is_base_of_node T}
    this (h : gmap positive Intrusive_slist_node) node :
  ¬ linked this h node →
  let this' := (Slist.push_front this h node).1 in
  let h' := (Slist.push_front this h node).2 in
  m_head this' = Some node
  ∧ next h' node = m_head this
  ∧ Slist.front T this' = at_addr node
  ∧ Slist.empty this' = false
  ∧ (∀ l, chain h (m_head this) l → chain h' (m_head this') (node :: l))
  ∧ ∀ x, x ≠ node → next h' x = next h x.
Proof.
  intros Hfresh this' h'.
  split; [done|]. split; [|split; [done|split; [done|split]]].
  - subst h'. unfold Slist.push_front.
    destruct (m_head this); simpl; apply next_set_next_eq.
  - intros l Hc. apply push_front_chain; [done|].
    by rewrite <- (linked_chain this h l node Hc).
  - intros x Hx. subst h'. unfold Slist.push_front.
    destruct (m_head this); simpl; by apply next_set_next_ne.
Qed.

Lemma push_front_links_new_head_witness :
  let this' := (Slist.push_front list_at_1 two_nodes 3%positive).1 in
  let h' := (Slist.push_front list_at_1 two_nodes 3%positive).2 in
  m_head this' = Some 3%positive
  ∧ next h' 3%positive = Some 1%positive
  ∧ Slist.front Intrusive_slist_node this' = at_addr 3%positive
  ∧ Slist.empty this' = false
  ∧ (∀ l, chain two_nodes (Some 1%positive) l →
          chain h' (m_head this') (3%positive :: l))
  ∧ ∀ x, x ≠ 3%positive → next h' x = next two_nodes x.
Proof.
  apply (push_front_links_new_head Intrusive_slist_node list_at_1 two_nodes
           3%positive).
  not_linked [1%positive; 2%positive].
Defined.

(** C9.  [push_front(n)] followed by [pop_front()] puts [m_head] back where
    it was, so [empty()] answers as before, and the chain of the list is
    the one it had. *)
Theorem push_then_pop_restores_head
    this (h : gmap positive Intrusive_slist_node) n :
  ¬ linked this h n →
  let st1 := Slist.push_front this h n in
  let st2 := Slist.pop_front st1.1 st1.2 in
  m_head st2.1 = m_head this
  ∧ Slist.empty st2.1 = Slist.empty this
  ∧ ∀ l, chain h (m_head this) l → chain st2.2 (m_head st2.1) l.
Proof.
  intros Hfresh st1 st2.
  assert (Hhead : m_head st2.1 = m_head this).
  { subst st2 st1. unfold Slist.pop_front, Slist.push_front. simpl.
    destruct (m_head this); apply next_set_next_eq. }
  split; [done|]. split.
  - unfold Slist.empty. by rewrite Hhead.
  - intros l Hc.
    assert (n ∉ l) as Hnin by (by rewrite <- (linked_chain this h l n Hc)).
    pose proof (pop_front_chain st1.1 st1.2 (n :: l)
                  (push_front_chain this h l n Hc Hnin)) as Hpop.
    exact Hpop.
Qed.

Lemma push_then_pop_restores_head_witness :
  let st1 := Slist.push_front list_at_1 two_nodes 3%positive in
  let st2 := Slist.pop_front st1.1 st1.2 in
  m_head st2.1 = Some 1%positive
  ∧ Slist.empty st2.1 = false
  ∧ ∀ l, chain two_nodes (Some 1%positive) l → chain st2.2 (m_head st2.1) l.
Proof.
  apply (push_then_pop_restores_head list_at_1 two_nodes 3%positive).
  not_linked [1%positive; 2%positive].
Defined.

(** ** Chains built by the list's own operations *)

(** C5.  Run any sequence of [push_front], [pop_front] and [erase] from the
    empty list, each push meeting a list that does not hold its node.  With
    fuel beyond the number of pushes every [erase] of the run returns, and
    the nodes reached from [m_head] form a chain that ends in [nullptr],
    visits no node twice, and is no longer than the number of distinct
    nodes pushed (hence than the number of pushes). *)
Theorem run_chain_acyclic_bounded
    fuel (ops : list op) (h0 : gmap positive Intrusive_slist_node) :
  length (pushed ops) < fuel →
  pushes_fresh fuel ops (Slist.ctor, h0) →
  ∃ st l,
    run fuel ops (Slist.ctor, h0) = Some st
    ∧ chain st.2 (m_head st.1) l
    ∧ NoDup l
    ∧ length l ≤ length (remove_dups (pushed ops))
    ∧ length l ≤ length (pushed ops).
Proof.
  intros Hfuel Hfresh.
  destruct (run_chain ops fuel (Slist.ctor, h0) [] []) as (st & l & Hrun & Hc & Hsub);
    try done.
  simpl in Hsub.
  exists st, l. split; [done|]. split; [done|].
  split; [by eapply chain_NoDup|].
  pose proof (chain_length_le _ _ _ _ Hc Hsub).
  pose proof (remove_dups_length_le (pushed ops)).
  split; lia.
Qed.

Lemma run_chain_acyclic_bounded_witness :
  ∃ st l,
    run 4 [Push 1%positive; Push 2%positive; Erase (Some 2%positive);
           Push 3%positive; Pop; Erase (Some 1%positive)]
        (Slist.ctor, two_nodes) = Some st
    ∧ chain st.2 (m_head st.1) l
    ∧ NoDup l
    ∧ length l ≤ 3
    ∧ length l ≤ 3.
Proof.
  apply (run_chain_acyclic_bounded 4
           [Push 1%positive; Push 2%positive; Erase (Some 2%positive);
            Push 3%positive; Pop; Erase (Some 1%positive)] two_nodes).
  - simpl. lia.
  - simpl.
    split; [not_linked (@nil positive)|].
    split; [not_linked [1%positive]|].
    split; [done|].
    split; [not_linked [2%positive]|].
    done.
Defined.

(** ** Move construction and [front] *)

(** C6.  The move constructor hands [rhs.m_head] to the new list and
    leaves [rhs] with a null head, hence empty; the store of nodes is the
    same afterwards, so the new list has the chain [rhs] had. *)
Theorem move_ctor_transfers_head
    rhs (h : gmap positive Intrusive_slist_node) :
  let this := (Slist.move_ctor rhs h).1.1 in
  let rhs' := (Slist.move_ctor rhs h).1.2 in
  let h' := (Slist.move_ctor rhs h).2 in
  m_head this = m_head rhs
  ∧ m_head rhs' = None
  ∧ Slist.empty rhs' = true
  ∧ h' = h
  ∧ (∀ a, next h' a = next h a)
  ∧ ∀ l, chain h (m_head rhs) l → chain h' (m_head this) l.
Proof. simpl. repeat split; done. Qed.

(** C8.  [front<T>()] of an empty list is the null pointer, for every [T]
    that has [Intrusive_slist_node] as a base. *)
Theorem front_of_empty_is_null (T : Type) `{Slist.is_base_of_node T} this :
  Slist.empty this = true → Slist.front T this = null_of.
Proof.
  unfold Slist.empty, Slist.front, Slist.static_cast_to.
  intros Hhd%bool_decide_eq_true. by rewrite Hhd.
Qed.

Lemma front_of_empty_is_null_witness :
  Slist.empty Slist.ctor = true
  ∧ Slist.front Intrusive_slist_node Slist.ctor = null_of.
Proof.
  split; [reflexivity|].
  apply (front_of_empty_is_null Intrusive_slist_node Slist.ctor).
  reflexivity.
Defined.

(** ** Logger *)

(** [k] calls of [acquire] hand out the free slots from the head of the
    free-list on, then null results. *)
Lemma acquire_n_results {T LEN} k : ∀ p : Containers.Object_pool T LEN,
  (Containers.acquire_n k p).1
    = (Some <$> take k (Containers.pool_free p))
      ++ replicate (k - length (Containers.pool_free p)) None
  ∧ Containers.pool_free (Containers.acquire_n k p).2
    = drop k (Containers.pool_free p).
Proof.
  induction k as [|k IH]; intros [free]; simpl.
  - by rewrite drop_0.
  - unfold Containers.acquire. simpl. destruct free as [|slot rest]; simpl.
    + destruct (IH (Containers.Build_Object_pool [])) as [Hres Hfree].
      simpl in Hres, Hfree. rewrite Hres, Hfree.
      rewrite ?take_nil, ?drop_nil. simpl. by rewrite ?Nat.sub_0_r.
    + destruct (IH (Containers.Build_Object_pool rest)) as [Hres Hfree].
      simpl in Hres, Hfree. by rewrite Hres, Hfree.
Qed.

(** Pushing [vs] fills the room the queue has left and refuses the rest. *)
Lemma push_each_results {T LEN} (vs : list T) :
  ∀ q : Containers.Queue_static_pod T LEN,
  (Containers.push_each vs q).1
    = replicate (min (length vs) (LEN - Containers.size q)) true
      ++ replicate (length vs - (LEN - Containers.size q)) false
  ∧ Containers.queue_items (Containers.push_each vs q).2
    = Containers.queue_items q ++ take (LEN - Containers.size q) vs.
Proof.
  induction vs as [|v vs IH]; intros [items]; simpl.
  - by rewrite take_nil, app_nil_r.
  - unfold Containers.push, Containers.size. simpl.
    destruct (decide (length items < LEN)) as [Hlt|Hge]; simpl.
    + destruct (IH (Containers.Build_Queue_static_pod (items ++ [v])))
        as [Hres Hitems].
      unfold Containers.size in Hres, Hitems. simpl in Hres, Hitems.
      rewrite length_app in Hres, Hitems. simpl in Hres, Hitems.
      rewrite Hres, Hitems.
      replace (LEN - length items) with (S (LEN - (length items + 1))) by lia.
      simpl. by rewrite <- app_assoc.
    + destruct (IH (Containers.Build_Queue_static_pod items)) as [Hres Hitems].
      unfold Containers.size in Hres, Hitems. simpl in Hres, Hitems.
      rewrite Hres, Hitems.
      replace (LEN - length items) with 0 by lia.
      rewrite Nat.min_0_r, Nat.sub_0_r. simpl. by rewrite take_0.
Qed.

(** [set_sink] calls leave the pool and the queue as constructed; the sink
    is the argument of the last call. *)
Lemma foldl_set_sink_members
    {NUM_RECORDS : nat} {String_type Log_sink_base : Type}
    (sinks : list (pointer_to Log_sink_base)) :
  ∀ lg : Logger_of NUM_RECORDS String_type Log_sink_base,
  Logging.m_log_pool (foldl Logging.set_sink lg sinks) = Logging.m_log_pool lg
  ∧ Logging.m_log_buffer (foldl Logging.set_sink lg sinks)
    = Logging.m_log_buffer lg
  ∧ Logging.m_sink (foldl Logging.set_sink lg sinks)
    = from_option id (Logging.m_sink lg) (last sinks).
Proof.
  induction sinks as [|sink sinks IH]; intros lg; simpl; [done|].
  destruct (IH (Logging.set_sink lg sink)) as (Hpool & Hbuf & Hsink).
  rewrite Hpool, Hbuf, Hsink. simpl. split; [done|]. split; [done|].
  destruct sinks as [|sink' sinks]; [done|]. rewrite last_cons_cons.
  destruct (last (sink' :: sinks)) eqn:Hlast; [done|].
  by apply last_None in Hlast.
Qed.

(** C7.  Take the Logger as its constructor and any [set_sink] calls leave
    it.  Its pool has capacity [NUM_RECORDS]: that many [acquire] calls in a
    row each hand out a slot, all distinct, and the next one returns null.
    Its queue has the same capacity: of any values pushed in a row the
    first [NUM_RECORDS] are accepted and kept in order, the others are
    refused.  The Logger is these two containers and a sink pointer, which
    is null until [set_sink] stores one. *)
Theorem logger_members
    (NUM_RECORDS : nat) (String_type Log_sink_base : Type)
    (sinks : list (pointer_to Log_sink_base))
    (vs : list (pointer_to String_type)) :
  let lg : Logger_of NUM_RECORDS String_type Log_sink_base :=
    Logger_after sinks in
  let acquired :=
    Containers.acquire_n (S NUM_RECORDS) (Logging.m_log_pool lg) in
  let queued := Containers.push_each vs (Logging.m_log_buffer lg) in
  (∃ slots, acquired.1 = (Some <$> slots) ++ [None]
            ∧ length slots = NUM_RECORDS
            ∧ NoDup slots)
  ∧ queued.1 = replicate (min (length vs) NUM_RECORDS) true
               ++ replicate (length vs - NUM_RECORDS) false
  ∧ Containers.queue_items queued.2 = take NUM_RECORDS vs
  ∧ Containers.size queued.2 ≤ NUM_RECORDS
  ∧ lg = Logging.Build_Logger (Logging.m_log_pool lg)
           (Logging.m_log_buffer lg) (Logging.m_sink lg)
  ∧ Logging.m_sink lg = from_option id null_of (last sinks).
Proof.
  intros lg acquired queued.
  destruct (foldl_set_sink_members sinks
              (Logger_new NUM_RECORDS String_type Log_sink_base))
    as (Hpool & Hbuf & Hsink).
  change (foldl Logging.set_sink
            (Logger_new NUM_RECORDS String_type Log_sink_base) sinks)
    with lg in Hpool, Hbuf, Hsink.
  change (Logging.m_log_pool (Logger_new NUM_RECORDS String_type Log_sink_base))
    with (Containers.Object_pool_ctor String_type NUM_RECORDS) in Hpool.
  change (Logging.m_log_buffer
            (Logger_new NUM_RECORDS String_type Log_sink_base))
    with (Containers.Queue_static_pod_ctor (pointer_to String_type)
            NUM_RECORDS) in Hbuf.
  change (Logging.m_sink (Logger_new NUM_RECORDS String_type Log_sink_base))
    with (@null_of Log_sink_base) in Hsink.
  subst acquired queued. rewrite Hpool, Hbuf.
  destruct (acquire_n_results (S NUM_RECORDS)
              (Containers.Object_pool_ctor String_type NUM_RECORDS))
    as [Hres _].
  destruct (push_each_results vs
              (Containers.Queue_static_pod_ctor (pointer_to String_type)
                 NUM_RECORDS))
    as [Hq Hitems].
  change (Containers.pool_free
            (Containers.Object_pool_ctor String_type NUM_RECORDS))
    with (seq 0 NUM_RECORDS) in Hres.
  change (Containers.size
            (Containers.Queue_static_pod_ctor (pointer_to String_type)
               NUM_RECORDS))
    with 0 in Hq, Hitems.
  change (Containers.queue_items
            (Containers.Queue_static_pod_ctor (pointer_to String_type)
               NUM_RECORDS))
    with (@nil (pointer_to String_type)) in Hitems.
  rewrite Nat.sub_0_r in Hq, Hitems. rewrite app_nil_l in Hitems.
  split; [|split; [done|split; [done|split; [|split]]]].
  - exists (seq 0 NUM_RECORDS). split; [|split].
    + rewrite Hres, length_seq.
      replace (S NUM_RECORDS - NUM_RECORDS) with 1 by lia.
      by rewrite take_ge by (rewrite length_seq; lia).
    + apply length_seq.
    + apply NoDup_seq.
  - unfold Containers.size. rewrite Hitems, length_take. lia.
  - rewrite <- Hpool, <- Hbuf. clear. clearbody lg. by destruct lg.
  - done.
Qed.

(** C10.  A Logger fresh from its constructor has a null sink, and
    [set_sink] stores its argument whatever was stored before, leaving the
    pool and the queue alone. *)
Theorem logger_sink_null_until_set
    (NUM_RECORDS : nat) (String_type : Type)
    (Object_pool Queue_static_pod : Type → nat → Type) (Log_sink_base : Type)
    (Object_pool_ctor : ∀ T LEN, Object_pool T LEN)
    (Queue_static_pod_ctor : ∀ T LEN, Queue_static_pod T LEN)
    (lg : Logging.Logger NUM_RECORDS String_type Object_pool Queue_static_pod
                         Log_sink_base)
    (sink : pointer_to Log_sink_base) :
  let fresh :=
    Logging.Logger_ctor NUM_RECORDS String_type Object_pool Queue_static_pod
      Log_sink_base Object_pool_ctor Queue_static_pod_ctor in
  Logging.m_sink fresh = null_of
  ∧ Logging.m_sink (Logging.set_sink fresh sink) = sink
  ∧ Logging.m_sink (Logging.set_sink lg sink) = sink
  ∧ Logging.m_log_pool (Logging.set_sink lg sink) = Logging.m_log_pool lg
  ∧ Logging.m_log_buffer (Logging.set_sink lg sink) = Logging.m_log_buffer lg.
Proof. repeat split. Qed.

(** * Further properties of the list *)

(** ** More on [erase] *)

(** The scan past a predecessor, with the store it leaves spelled out: the
    node before [n] takes [n]'s link and [n]'s link is cleared. *)
Lemma erase_loop_inner_store (l1 : list addr) : ∀ fuel (h : heap) p n l2 pred,
  chain h (Some p) (p :: l1 ++ n :: l2) →
  last (p :: l1) = Some pred →
  length l1 < fuel →
  Slist.erase_loop fuel h (Some p) (next h p) (Some n)
    = Some (set_next (set_next h pred (next h n)) n None, true).
Proof.
  induction l1 as [|a l1 IH]; intros fuel h p n l2 pred Hc Hlast Hfuel.
  - simpl in Hlast. injection Hlast as <-.
    simpl in Hc. destruct Hc as (_ & Hpn & _).
    destruct fuel as [|fuel]; [simpl in Hfuel; lia|].
    rewrite Hpn. simpl. by rewrite decide_True.
  - pose proof (chain_NoDup _ _ _ Hc) as Hnd.
    change (p :: (a :: l1) ++ n :: l2) with (p :: a :: l1 ++ n :: l2) in Hc, Hnd.
    destruct Hc as (_ & Hpa & Hc).
    apply NoDup_cons in Hnd as [_ Hnd]. apply NoDup_cons in Hnd as [Ha _].
    apply not_elem_of_app_cons in Ha as (_ & Han & _).
    rewrite last_cons_cons in Hlast.
    destruct fuel as [|fuel]; [simpl in Hfuel; lia|].
    rewrite Hpa. simpl. rewrite decide_False by congruence.
    apply (IH fuel h a n l2 pred); [|done|simpl in Hfuel; lia].
    simpl. split; [done|]. exact Hc.
Qed.



(** X2.  [erase] of a node that sits behind the head returns true and
    writes exactly two links: the node before it takes its link, and its
    own link is cleared.  The list is the old chain without that node, in
    the old order. *)
Theorem erase_unthreads_node_behind_head
    fuel this (h : gmap positive Intrusive_slist_node) p l1 n l2 pred :
  chain h (m_head this) (p :: l1 ++ n :: l2) →
  last (p :: l1) = Some pred →
  S (length l1) < fuel →
  let h' := set_next (set_next h pred (next h n)) n None in
  Slist.erase fuel this h (Some n) = Some (this, h', true)
  ∧ chain h' (m_head this) (p :: l1 ++ l2)
  ∧ ¬ linked this h' n.
Proof.
  intros Hc Hlast Hfuel h'.
  pose proof (chain_NoDup _ _ _ Hc) as Hnd.
  destruct (erase_inner fuel this h p l1 n l2 Hc Hfuel)
    as (h1 & Hrun & Hc1 & _).
  assert (Hstore : Slist.erase fuel this h (Some n) = Some (this, h', true)).
  { pose proof Hc as Hc0. simpl in Hc0. destruct Hc0 as [Hhd _].
    rewrite Hhd in Hc.
    apply NoDup_cons in Hnd as [Hp _].
    apply not_elem_of_app_cons in Hp as (_ & Hpn & _).
    destruct fuel as [|fuel]; [lia|].
    unfold Slist.erase. rewrite Hhd. simpl.
    rewrite decide_False by congruence.
    rewrite (erase_loop_inner_store l1 fuel h p n l2 pred Hc Hlast); [done|lia]. }
  rewrite Hstore in Hrun. injection Hrun as <-.
  split; [done|]. split; [done|].
  rewrite (linked_chain this h' _ n Hc1).
  change (p :: l1 ++ n :: l2) with ((p :: l1) ++ n :: l2) in Hnd.
  apply NoDup_app in Hnd as (_ & Hdisj & Hnd2).
  apply NoDup_cons in Hnd2 as [Hn2 _].
  change (p :: l1 ++ l2) with ((p :: l1) ++ l2).
  rewrite elem_of_app. intros [Hin|Hin]; [|done].
  apply (Hdisj n Hin). apply list_elem_of_here.
Qed.

Lemma erase_unthreads_node_behind_head_witness :
  let h' := set_next (set_next three_nodes 1%positive (Some 3%positive))
                     2%positive None in
  Slist.erase 3 list_at_1 three_nodes (Some 2%positive)
    = Some (list_at_1, h', true)
  ∧ chain h' (Some 1%positive) [1%positive; 3%positive]
  ∧ ¬ linked list_at_1 h' 2%positive.
Proof.
  apply (erase_unthreads_node_behind_head 3 list_at_1 three_nodes
           1%positive [] 2%positive [3%positive] 1%positive).
  - by vm_compute.
  - reflexivity.
  - simpl. lia.
Defined.

(** X3.  On a list whose chain has [length l] nodes the scan of [erase]
    returns within [length l + 1] tests of its loop condition, it returns
    true exactly when the pointer designates a node of the list, and what it
    leaves is again a null-terminated chain, made of nodes the list held
    before. *)
Theorem erase_returns_true_iff_linked
    fuel this (h : gmap positive Intrusive_slist_node) l node :
  chain h (m_head this) l →
  length l < fuel →
  ∃ h' found l',
    Slist.erase fuel this h node = Some (this, h', found)
    ∧ (found = true ↔ ∃ n, node = Some n ∧ linked this h n)
    ∧ chain h' (m_head this) l'
    ∧ length l' ≤ length l
    ∧ ∀ x, linked this h' x → linked this h x.
Proof.
  intros Hc Hfuel.
  destruct (erase_total fuel this h l node Hc Hfuel)
    as (h' & found & l' & Hrun & Hc' & Hsub & Hiff).
  exists h', found, l'. split; [done|]. split; [|split; [done|split]].
  - rewrite Hiff. split; intros (n & -> & Hn); exists n; split; try done.
    + by apply (linked_chain this h l n Hc).
    + by apply (linked_chain this h l n Hc).
  - apply submseteq_length, NoDup_submseteq; [by eapply chain_NoDup|done].
  - intros x Hx. apply (linked_chain this h l x Hc). apply Hsub.
    by apply (linked_chain this h' l' x Hc').
Qed.

Lemma erase_returns_true_iff_linked_witness :
  ∃ h' found l',
    Slist.erase 4 list_at_1 three_nodes (Some 3%positive)
      = Some (list_at_1, h', found)
    ∧ (found = true ↔ ∃ n, Some 3%positive = Some n
                           ∧ linked list_at_1 three_nodes n)
    ∧ chain h' (m_head list_at_1) l'
    ∧ length l' ≤ 3
    ∧ ∀ x, linked list_at_1 h' x → linked list_at_1 three_nodes x.
Proof.
  apply (erase_returns_true_iff_linked 4 list_at_1 three_nodes
           [1%positive; 2%positive; 3%positive] (Some 3%positive)).
  - by vm_compute.
  - simpl. lia.
Defined.

(** X4.  [erase] of the node [m_head] designates stops at the first test
    with no predecessor in hand: it returns true and its only write
    clears that node's link.  [m_head] keeps designating the node, so the
    list is then that single node and no other node is reachable from it.
    This holds for any store, chained or not. *)
Theorem erase_of_head_leaves_singleton
    fuel this (h : gmap positive Intrusive_slist_node) n :
  m_head this = Some n →
  0 < fuel →
  Slist.erase fuel this h (Some n) = Some (this, set_next h n None, true)
  ∧ chain (set_next h n None) (m_head this) [n]
  ∧ ∀ x, linked this (set_next h n None) x ↔ x = n.
Proof.
  intros Hhd Hfuel.
  assert (Hc : chain (set_next h n None) (m_head this) [n]).
  { rewrite Hhd. simpl. split; [done|]. apply next_set_next_eq. }
  split; [by apply erase_head|]. split; [done|].
  intros x. rewrite (linked_chain _ _ _ x Hc). apply list_elem_of_singleton.
Qed.

Lemma erase_of_head_leaves_singleton_witness :
  Slist.erase 1 list_at_1 three_nodes (Some 1%positive)
    = Some (list_at_1, set_next three_nodes 1%positive None, true)
  ∧ chain (set_next three_nodes 1%positive None) (m_head list_at_1) [1%positive]
  ∧ ∀ x, linked list_at_1 (set_next three_nodes 1%positive None) x
         ↔ x = 1%positive.
Proof.
  apply (erase_of_head_leaves_singleton 1 list_at_1 three_nodes 1%positive).
  - reflexivity.
  - lia.
Defined.

(** X5.  Erasing a node behind the head a second time finds nothing: the
    second call returns false and writes nothing. *)
Theorem erase_twice_second_returns_false
    fuel this (h : gmap positive Intrusive_slist_node) p l1 n l2 :
  chain h (m_head this) (p :: l1 ++ n :: l2) →
  length (p :: l1 ++ n :: l2) ≤ fuel →
  ∃ h',
    Slist.erase fuel this h (Some n) = Some (this, h', true)
    ∧ Slist.erase fuel this h' (Some n) = Some (this, h', false).
Proof.
  intros Hc Hfuel.
  pose proof (chain_NoDup _ _ _ Hc) as Hnd.
  simpl in Hfuel. rewrite length_app in Hfuel. simpl in Hfuel.
  destruct (erase_inner fuel this h p l1 n l2 Hc) as (h' & Hrun & Hc' & _);
    [lia|].
  exists h'. split; [done|].
  apply (erase_absent fuel this h' (p :: l1 ++ l2)); [done| |].
  - intros a Ha [= <-].
    change (p :: l1 ++ n :: l2) with ((p :: l1) ++ n :: l2) in Hnd.
    apply NoDup_app in Hnd as (_ & Hdisj & Hnd2).
    apply NoDup_cons in Hnd2 as [Hn2 _].
    change (p :: l1 ++ l2) with ((p :: l1) ++ l2) in Ha.
    apply elem_of_app in Ha as [Ha|Ha]; [|done].
    apply (Hdisj n Ha). apply list_elem_of_here.
  - simpl. rewrite length_app. lia.
Qed.

Lemma erase_twice_second_returns_false_witness :
  ∃ h',
    Slist.erase 3 list_at_1 three_nodes (Some 3%positive)
      = Some (list_at_1, h', true)
    ∧ Slist.erase 3 list_at_1 h' (Some 3%positive)
      = Some (list_at_1, h', false).
Proof.
  apply (erase_twice_second_returns_false 3 list_at_1 three_nodes
           1%positive [2%positive] 3%positive []).
  - by vm_compute.
  - simpl. lia.
Defined.

(** ** More on [pop_front] and [push_front] *)

(** The head pointer of a chain is read off the chain alone. *)
Lemma chain_head (h : heap) p l : chain h p l → p = head l.
Proof. destruct l; simpl; [done|]. by intros [-> _]. Qed.

Lemma pop_n_chain k : ∀ this (h : heap) l,
  chain h (m_head this) l →
  (pop_n k (this, h)).2 = h
  ∧ chain h (m_head (pop_n k (this, h)).1) (drop k l).
Proof.
  induction k as [|k IH]; intros this h l Hc; simpl.
  - by rewrite drop_0.
  - pose proof (pop_front_chain this h l Hc) as Hpop.
    assert (Hstore : (Slist.pop_front this h).2 = h).
    { unfold Slist.pop_front. by destruct (m_head this). }
    rewrite Hstore in Hpop.
    destruct (Slist.pop_front this h) as [this1 h1] eqn:Heq.
    simpl in Hstore, Hpop. subst h1. simpl.
    destruct (IH this1 h (tail l) Hpop) as [Hs Hc'].
    split; [done|]. destruct l; simpl in *; [by rewrite drop_nil in Hc'|done].
Qed.

Lemma push_all_chain (ns : list addr) : ∀ this (h : heap) l,
  chain h (m_head this) l →
  NoDup ns →
  (∀ n, n ∈ ns → n ∉ l) →
  chain (push_all ns (this, h)).2 (m_head (push_all ns (this, h)).1)
        (reverse ns ++ l)
  ∧ ∀ x, x ∉ ns → next (push_all ns (this, h)).2 x = next h x.
Proof.
  induction ns as [|n ns IH]; intros this h l Hc Hnd Hfresh; simpl.
  - done.
  - apply NoDup_cons in Hnd as [Hn Hnd].
    assert (Hnl : n ∉ l) by (apply Hfresh, list_elem_of_here).
    pose proof (push_front_chain this h l n Hc Hnl) as Hpush.
    destruct (Slist.push_front this h n) as [this1 h1] eqn:Heq.
    simpl in Hpush.
    destruct (IH this1 h1 (n :: l) Hpush Hnd) as [Hc' Hframe].
    { intros m Hm. apply not_elem_of_cons. split.
      - intros ->. done.
      - apply Hfresh. apply elem_of_cons. by right. }
    split.
    + rewrite reverse_cons, <- app_assoc. exact Hc'.
    + intros x Hx. apply not_elem_of_cons in Hx as [Hxn Hx].
      rewrite (Hframe x Hx).
      assert (h1 = (Slist.push_front this h n).2) as -> by (by rewrite Heq).
      unfold Slist.push_front.
      destruct (m_head this); simpl; by apply next_set_next_ne.
Qed.

(** X6.  [pop_front] takes the head node out of the list: on a list whose
    chain is [a :: l] the node [a] is not reachable afterwards, and every
    other node is in the list exactly when it was before. *)
Theorem pop_front_unlinks_head_only
    this (h : gmap positive Intrusive_slist_node) a l :
  chain h (m_head this) (a :: l) →
  let this' := (Slist.pop_front this h).1 in
  let h' := (Slist.pop_front this h).2 in
  ¬ linked this' h' a
  ∧ ∀ x, x ≠ a → (linked this' h' x ↔ linked this h x).
Proof.
  intros Hc this' h'.
  pose proof (chain_NoDup _ _ _ Hc) as Hnd.
  apply NoDup_cons in Hnd as [Ha _].
  pose proof (pop_front_chain this h (a :: l) Hc) as Hc'. simpl in Hc'.
  subst this' h'. split.
  - by rewrite (linked_chain _ _ _ a Hc').
  - intros x Hx.
    rewrite (linked_chain _ _ _ x Hc'), (linked_chain _ _ _ x Hc).
    rewrite elem_of_cons. split; [tauto|]. intros [?|?]; done.
Qed.

Lemma pop_front_unlinks_head_only_witness :
  let this' := (Slist.pop_front list_at_1 three_nodes).1 in
  let h' := (Slist.pop_front list_at_1 three_nodes).2 in
  ¬ linked this' h' 1%positive
  ∧ ∀ x, x ≠ 1%positive → (linked this' h' x ↔ linked list_at_1 three_nodes x).
Proof.
  apply (pop_front_unlinks_head_only list_at_1 three_nodes 1%positive
           [2%positive; 3%positive]).
  by vm_compute.
Defined.

(** X7.  [k] calls of [pop_front] drop the first [k] nodes of the chain
    (all of them when the chain is shorter) and write no node; the list is
    empty afterwards exactly when [k] reaches the length of the chain. *)
Theorem pop_n_drops_prefix
    k this (h : gmap positive Intrusive_slist_node) l :
  chain h (m_head this) l →
  (pop_n k (this, h)).2 = h
  ∧ chain h (m_head (pop_n k (this, h)).1) (drop k l)
  ∧ (Slist.empty (pop_n k (this, h)).1 = true ↔ length l ≤ k).
Proof.
  intros Hc. destruct (pop_n_chain k this h l Hc) as [Hs Hc'].
  split; [done|]. split; [done|].
  unfold Slist.empty. rewrite bool_decide_eq_true.
  rewrite (chain_head _ _ _ Hc').
  rewrite head_None. split.
  - intros Hd. apply (f_equal length) in Hd. rewrite length_drop in Hd.
    simpl in Hd. lia.
  - apply drop_ge.
Qed.

Lemma pop_n_drops_prefix_witness :
  (pop_n 2 (list_at_1, three_nodes)).2 = three_nodes
  ∧ chain three_nodes (m_head (pop_n 2 (list_at_1, three_nodes)).1)
          [3%positive]
  ∧ (Slist.empty (pop_n 2 (list_at_1, three_nodes)).1 = true ↔ 3 ≤ 2).
Proof.
  apply (pop_n_drops_prefix 2 list_at_1 three_nodes
           [1%positive; 2%positive; 3%positive]).
  by vm_compute.
Defined.

(** X8.  Pushing distinct nodes, none of them in the list, stacks them in
    front of the old chain in reverse order of the calls (last pushed is
    first), and writes the link of no other node. *)
Theorem push_all_stacks_in_reverse
    (ns : list positive) this (h : gmap positive Intrusive_slist_node) l :
  chain h (m_head this) l →
  NoDup ns →
  (∀ n, n ∈ ns → ¬ linked this h n) →
  chain (push_all ns (this, h)).2 (m_head (push_all ns (this, h)).1)
        (reverse ns ++ l)
  ∧ ∀ x, x ∉ ns → next (push_all ns (this, h)).2 x = next h x.
Proof.
  intros Hc Hnd Hfresh. apply push_all_chain; [done..|].
  intros n Hn. rewrite <- (linked_chain this h l n Hc). by apply Hfresh.
Qed.

Lemma push_all_stacks_in_reverse_witness :
  chain (push_all [5%positive; 6%positive] (list_at_1, two_nodes)).2
        (m_head (push_all [5%positive; 6%positive] (list_at_1, two_nodes)).1)
        [6%positive; 5%positive; 1%positive; 2%positive]
  ∧ ∀ x, x ∉ [5%positive; 6%positive] →
         next (push_all [5%positive; 6%positive] (list_at_1, two_nodes)).2 x
         = next two_nodes x.
Proof.
  apply (push_all_stacks_in_reverse [5%positive; 6%positive] list_at_1
           two_nodes [1%positive; 2%positive]).
  - by vm_compute.
  - apply NoDup_cons. split.
    + rewrite not_elem_of_cons. split; [done|apply not_elem_of_nil].
    + apply NoDup_singleton.
  - intros n Hn. not_linked [1%positive; 2%positive];
      subst n; revert Hn; rewrite !elem_of_cons;
      intros Hn; decompose [or] Hn; try discriminate;
      eapply not_elem_of_nil; eassumption.
Defined.

(** X9.  Pushing distinct fresh nodes and then popping as many times puts
    [m_head] back where it was; the old chain is the list again and the
    nodes that were not pushed have their links untouched. *)
Theorem push_all_then_pop_n_restores
    (ns : list positive) this (h : gmap positive Intrusive_slist_node) l :
  chain h (m_head this) l →
  NoDup ns →
  (∀ n, n ∈ ns → ¬ linked this h n) →
  let st := pop_n (length ns) (push_all ns (this, h)) in
  m_head st.1 = m_head this
  ∧ chain st.2 (m_head st.1) l
  ∧ ∀ x, x ∉ ns → next st.2 x = next h x.
Proof.
  intros Hc Hnd Hfresh st.
  destruct (push_all_chain ns this h l Hc Hnd) as [Hc1 Hframe].
  { intros n Hn. rewrite <- (linked_chain this h l n Hc). by apply Hfresh. }
  destruct (push_all ns (this, h)) as [this1 h1] eqn:Heq. simpl in Hc1, Hframe.
  destruct (pop_n_chain (length ns) this1 h1 _ Hc1) as [Hs Hc2].
  rewrite <- (length_reverse ns), drop_app_length in Hc2.
  rewrite length_reverse in Hc2.
  subst st. rewrite Hs.
  split; [|split; [done|done]].
  by rewrite (chain_head _ _ _ Hc2), (chain_head _ _ _ Hc).
Qed.

Lemma push_all_then_pop_n_restores_witness :
  let st := pop_n 2 (push_all [5%positive; 6%positive] (list_at_1, two_nodes)) in
  m_head st.1 = Some 1%positive
  ∧ chain st.2 (m_head st.1) [1%positive; 2%positive]
  ∧ ∀ x, x ∉ [5%positive; 6%positive] → next st.2 x = next two_nodes x.
Proof.
  apply (push_all_then_pop_n_restores [5%positive; 6%positive] list_at_1
           two_nodes [1%positive; 2%positive]).
  - by vm_compute.
  - apply NoDup_cons. split.
    + rewrite not_elem_of_cons. split; [done|apply not_elem_of_nil].
    + apply NoDup_singleton.
  - intros n Hn. not_linked [1%positive; 2%positive];
      subst n; revert Hn; rewrite !elem_of_cons;
      intros Hn; decompose [or] Hn; try discriminate;
      eapply not_elem_of_nil; eassumption.
Defined.

(** X10.  [push_front] does not read the link of the node it is given: a
    link left over in the node (from an earlier [pop_front], say) has no
    effect on the list or on the store it produces. *)
Theorem push_front_overwrites_old_link
    this (h : gmap positive Intrusive_slist_node) node stale :
  Slist.push_front this (set_next h node stale) node
  = Slist.push_front this h node.
Proof.
  unfold Slist.push_front, set_next.
  destruct (m_head this); by rewrite insert_insert_eq.
Qed.

(** X11.  [pop_front] followed by [push_front] of the node that was the
    head restores the list: [m_head] designates that node again and every
    node has the link it had. *)
Theorem pop_then_push_head_restores
    this (h : gmap positive Intrusive_slist_node) a :
  m_head this = Some a →
  let st1 := Slist.pop_front this h in
  let st2 := Slist.push_front st1.1 st1.2 a in
  st2.1 = this
  ∧ ∀ x, next st2.2 x = next h x.
Proof.
  intros Hhd st1 st2. subst st2 st1.
  unfold Slist.pop_front. rewrite Hhd. unfold Slist.push_front. simpl.
  split; [destruct this; simpl in *; by subst|].
  intros x. destruct (decide (x = a)) as [->|Hne].
  - destruct (next h a) eqn:Hn; by rewrite next_set_next_eq.
  - destruct (next h a); by rewrite next_set_next_ne.
Qed.

Lemma pop_then_push_head_restores_witness :
  let st1 := Slist.pop_front list_at_1 three_nodes in
  let st2 := Slist.push_front st1.1 st1.2 1%positive in
  st2.1 = list_at_1
  ∧ ∀ x, next st2.2 x = next three_nodes x.
Proof.
  apply (pop_then_push_head_restores list_at_1 three_nodes 1%positive).
  reflexivity.
Defined.

(** X12.  [front<T>()] is the null pointer exactly when [empty()] is true,
    and otherwise it carries the address held in [m_head]. *)
Theorem front_null_iff_empty (T : Type) `{Slist.is_base_of_node T} this :
  (Slist.front T this = null_of ↔ Slist.empty this = true)
  ∧ ∀ a, Slist.front T this = at_addr a ↔ m_head this = Some a.
Proof.
  unfold Slist.front, Slist.static_cast_to, Slist.empty.
  rewrite bool_decide_eq_true.
  destruct (m_head this) as [hd|]; split; try intros a; split;
    try done; try congruence.
Qed.

(** ** Lists that are not chains *)

(** A walk that reaches [nullptr] has a chain behind it. *)
Lemma hops_None_chain k : ∀ (h : heap) p,
  hops h k p = None → ∃ l, chain h p l.
Proof.
  induction k as [|k IH]; intros h p; simpl.
  - intros ->. by exists [].
  - destruct p as [a|]; [|by exists []].
    intros Hk. destruct (IH _ _ Hk) as [l Hl]. by exists (a :: l).
Qed.

(** After a write to [n], a chain from [p] still starts with what came
    before [n]. *)
Lemma chain_prefix_after_write (l1 : list addr) : ∀ (h : heap) p n q l2 lx,
  chain h p (l1 ++ n :: l2) →
  n ∉ l1 →
  chain (set_next h n q) p lx →
  ∃ l3, lx = l1 ++ n :: l3.
Proof.
  induction l1 as [|a l1 IH]; intros h p n q l2 lx Hc Hn Hx; simpl in Hc.
  - destruct Hc as [-> _]. destruct lx as [|b lx]; simpl in Hx; [done|].
    destruct Hx as [[= <-] _]. by exists lx.
  - destruct Hc as [-> Hc]. apply not_elem_of_cons in Hn as [Hna Hn].
    destruct lx as [|b lx]; simpl in Hx; [done|].
    destruct Hx as [[= <-] Hx].
    rewrite next_set_next_ne in Hx by done.
    destruct (IH h _ n q l2 lx Hc Hn Hx) as [l3 ->]. by exists l3.
Qed.

Lemma erase_loop_endless fuel : ∀ (h : heap) prev curr node,
  (∀ k, is_Some (hops h k curr)) →
  (∀ k, hops h k curr ≠ node) →
  Slist.erase_loop fuel h prev curr node = None.
Proof.
  induction fuel as [|fuel IH]; intros h prev curr node Hwalk Hne; [done|].
  simpl. destruct curr as [c|]; [|by destruct (Hwalk 0)].
  rewrite decide_False by (exact (Hne 0)).
  apply IH.
  - intros k. exact (Hwalk (S k)).
  - intros k. exact (Hne (S k)).
Qed.

Lemma self_loop_hops k : hops self_loop k (Some 1%positive) = Some 1%positive.
Proof. induction k as [|k IH]; [done|]. simpl. exact IH. Qed.

(** X13.  [push_front] does not check membership: handing it a node that
    is already in the list closes a cycle.  Afterwards no walk from
    [m_head] reaches [nullptr], so the list is no chain any more. *)
Theorem push_front_of_linked_node_makes_cycle
    this (h : gmap positive Intrusive_slist_node) l n :
  chain h (m_head this) l →
  linked this h n →
  let st := Slist.push_front this h n in
  (∀ l', ¬ chain st.2 (m_head st.1) l')
  ∧ ∀ k, is_Some (hops st.2 k (m_head st.1)).
Proof.
  intros Hc Hlinked st.
  assert (Hnochain : ∀ l', ¬ chain st.2 (m_head st.1) l').
  { intros l' Hc'.
    pose proof (chain_NoDup _ _ _ Hc) as Hnd.
    pose proof (chain_NoDup _ _ _ Hc') as Hnd'.
    apply (linked_chain this h l n Hc) in Hlinked.
    apply list_elem_of_split in Hlinked as (l1 & l2 & ->).
    apply NoDup_app in Hnd as (_ & Hdisj & _).
    assert (Hn1 : n ∉ l1).
    { intros Hin. apply (Hdisj n Hin). apply list_elem_of_here. }
    subst st. unfold Slist.push_front in Hc', Hnd'. simpl in Hc'.
    assert (Hhd : ∃ hd, m_head this = Some hd).
    { destruct l1; simpl in Hc; destruct Hc as [-> _]; eauto. }
    destruct Hhd as [hd Hhd]. rewrite Hhd in Hc'.
    destruct l' as [|b l']; simpl in Hc'; [done|].
    destruct Hc' as [[= <-] Hc']. rewrite next_set_next_eq in Hc'.
    rewrite <- Hhd in Hc'.
    destruct (chain_prefix_after_write l1 h _ n _ l2 l' Hc Hn1 Hc')
      as [l3 ->].
    apply NoDup_cons in Hnd' as [Hn' _]. apply Hn'.
    apply elem_of_app. right. apply list_elem_of_here. }
  split; [done|].
  intros k. destruct (hops st.2 k (m_head st.1)) as [a|] eqn:Hk; [by eexists|].
  destruct (hops_None_chain _ _ _ Hk) as [l' Hl']. by destruct (Hnochain l').
Qed.

Lemma push_front_of_linked_node_makes_cycle_witness :
  let st := Slist.push_front list_at_1 two_nodes 2%positive in
  (∀ l', ¬ chain st.2 (m_head st.1) l')
  ∧ ∀ k, is_Some (hops st.2 k (m_head st.1)).
Proof.
  apply (push_front_of_linked_node_makes_cycle list_at_1 two_nodes
           [1%positive; 2%positive] 2%positive).
  - by vm_compute.
  - by exists 1.
Defined.

(** X14.  [erase] has no bound of its own on the scan.  On a list whose
    walk never reaches [nullptr], a call for a pointer that designates no
    node of the list does not return: no amount of fuel is enough. *)
Theorem erase_never_returns_on_endless_walk
    this (h : gmap positive Intrusive_slist_node) node :
  (∀ k, is_Some (hops h k (m_head this))) →
  (∀ a, node = Some a → ¬ linked this h a) →
  ∀ fuel, Slist.erase fuel this h node = None.
Proof.
  intros Hwalk Habsent fuel. unfold Slist.erase.
  rewrite erase_loop_endless; [done|done|].
  intros k Hk. destruct (Hwalk k) as [a Ha].
  apply (Habsent a); [congruence|]. by exists k.
Qed.

Lemma erase_never_returns_on_endless_walk_witness :
  Slist.erase 1000 list_at_1 self_loop (Some 2%positive) = None.
Proof.
  apply (erase_never_returns_on_endless_walk list_at_1 self_loop
           (Some 2%positive)).
  - intros k. simpl. rewrite self_loop_hops. by eexists.
  - intros a [= <-] [k Hk]. simpl in Hk. rewrite self_loop_hops in Hk.
    discriminate Hk.
Defined.

(** ** The constructors of a node that is in a list *)

Lemma chain_truncate (l1 : list addr) : ∀ (h : heap) p a l2,
  chain h p (l1 ++ a :: l2) → chain (set_next h a None) p (l1 ++ [a]).
Proof.
  induction l1 as [|b l1 IH]; intros h p a l2 Hc.
  - simpl in Hc. destruct Hc as [-> _]. simpl. split; [done|].
    apply next_set_next_eq.
  - pose proof (chain_NoDup _ _ _ Hc) as Hnd. simpl in Hc, Hnd.
    destruct Hc as [-> Hc]. apply NoDup_cons in Hnd as [Hb _].
    apply not_elem_of_app_cons in Hb as (_ & Hba & _).
    simpl. split; [done|]. rewrite next_set_next_ne by done.
    by apply (IH h _ a l2).
Qed.

(** X15.  Move-constructing a node at a fresh address [b] from a node [a]
    of a list cuts the list behind [a]: [a]'s link is cleared, so the list
    ends at [a], and the nodes that followed [a] now follow [b].  No other
    node is written. *)
Theorem node_move_ctor_cuts_list
    this (h : gmap positive Intrusive_slist_node) l1 a l2 b :
  chain h (m_head this) (l1 ++ a :: l2) →
  b ∉ l1 ++ a :: l2 →
  let h' := node_move_ctor h b a in
  chain h' (m_head this) (l1 ++ [a])
  ∧ chain h' (Some b) (b :: l2)
  ∧ ∀ x, x ≠ a → x ≠ b → next h' x = next h x.
Proof.
  intros Hc Hb h'. subst h'. unfold node_move_ctor.
  pose proof (chain_NoDup _ _ _ Hc) as Hnd.
  pose proof (chain_suffix _ _ _ _ _ Hc) as Hs. simpl in Hs.
  destruct Hs as [_ Hs].
  apply NoDup_app in Hnd as (_ & _ & Hnd2).
  apply NoDup_cons in Hnd2 as [Ha2 _].
  pose proof Hb as Hb'.
  apply not_elem_of_app_cons in Hb' as (_ & Hba & Hb2).
  split; [|split].
  - apply chain_truncate with l2. by apply chain_set_next_frame.
  - simpl. split; [done|].
    rewrite next_set_next_ne by done. rewrite next_set_next_eq.
    apply chain_set_next_frame; [done|]. by apply chain_set_next_frame.
  - intros x Hxa Hxb. rewrite next_set_next_ne by done.
    by rewrite next_set_next_ne.
Qed.

Lemma node_move_ctor_cuts_list_witness :
  let h' := node_move_ctor three_nodes 9%positive 2%positive in
  chain h' (m_head list_at_1) [1%positive; 2%positive]
  ∧ chain h' (Some 9%positive) [9%positive; 3%positive]
  ∧ ∀ x, x ≠ 2%positive → x ≠ 9%positive → next h' x = next three_nodes x.
Proof.
  apply (node_move_ctor_cuts_list list_at_1 three_nodes [1%positive]
           2%positive [3%positive] 9%positive).
  - by vm_compute.
  - simpl. rewrite !not_elem_of_cons.
    repeat split; [done..|apply not_elem_of_nil].
Defined.

(** X16.  Copying a node [a] of a list into a node [b] outside it leaves
    the list as it was and makes [b] a second entry to the nodes behind
    [a]: they are then reached both from [m_head] and from [b]. *)
Theorem node_copy_shares_tail
    this (h : gmap positive Intrusive_slist_node) l1 a l2 b :
  chain h (m_head this) (l1 ++ a :: l2) →
  b ∉ l1 ++ a :: l2 →
  let h' := node_copy h b a in
  chain h' (m_head this) (l1 ++ a :: l2)
  ∧ chain h' (Some b) (b :: l2)
  ∧ ∀ x, x ≠ b → next h' x = next h x.
Proof.
  intros Hc Hb h'. subst h'. unfold node_copy.
  pose proof (chain_suffix _ _ _ _ _ Hc) as Hs. simpl in Hs.
  destruct Hs as [_ Hs].
  pose proof Hb as Hb'.
  apply not_elem_of_app_cons in Hb' as (_ & Hba & Hb2).
  split; [|split].
  - by apply chain_set_next_frame.
  - simpl. split; [done|]. rewrite next_set_next_eq.
    by apply chain_set_next_frame.
  - intros x Hx. by rewrite next_set_next_ne.
Qed.

Lemma node_copy_shares_tail_witness :
  let h' := node_copy three_nodes 9%positive 2%positive in
  chain h' (m_head list_at_1) [1%positive; 2%positive; 3%positive]
  ∧ chain h' (Some 9%positive) [9%positive; 3%positive]
  ∧ ∀ x, x ≠ 9%positive → next h' x = next three_nodes x.
Proof.
  apply (node_copy_shares_tail list_at_1 three_nodes [1%positive]
           2%positive [3%positive] 9%positive).
  - by vm_compute.
  - simpl. rewrite !not_elem_of_cons.
    repeat split; [done..|apply not_elem_of_nil].
Defined.
